(** * Tic-tac-toe with move history: a shallow embedding of [src/Game.tsx]

    The development follows the source file top-down: the cell values and
    JavaScript array primitives, [calculateWinner], [getMoveLocation], and
    then the state held by the [Game] component together with its three
    event handlers ([handleClick], [jumpTo], and the sort toggle) and the
    values derived on each render ([current], [status], [moves],
    [sortedMoves]). *)

From stdpp Require Import base numbers list strings pretty.

(** ** Cell values and arrays *)

(** The declared type is ["X" | "O" | null].  At run time a read outside an
    array (or of a hole) produces [undefined], so the embedding carries that
    fourth value as well. *)
Inductive SquareValue : Set :=
  | MarkX
  | MarkO
  | Null
  | Undefined.

#[global] Instance SquareValue_eq_dec : EqDecision SquareValue.
Proof. solve_decision. Defined.

(** JavaScript truthiness: the two non-empty strings are truthy, [null] and
    [undefined] are falsy. *)
Definition truthy (v : SquareValue) : bool :=
  match v with
  | MarkX | MarkO => true
  | Null | Undefined => false
  end.

(** Strict equality [===] on cell values. *)
Definition strictEq (v w : SquareValue) : bool := bool_decide (v = w).

(** [squares[i]]: reading past the end yields [undefined]. *)
Definition read (squares : list SquareValue) (i : nat) : SquareValue :=
  default Undefined (squares !! i).

(** [squares[i] = v]: in range the slot is replaced; past the end the array
    grows, the skipped slots being holes that read as [undefined]. *)
Definition write (squares : list SquareValue) (i : nat) (v : SquareValue)
  : list SquareValue :=
  if decide (i < length squares) then <[i:=v]> squares
  else squares ++ replicate (i - length squares) Undefined ++ [v].

(** [l[n]] for a numeric index [n]: [undefined] (here [None]) when [n] is
    negative or not below the length. *)
Definition index {A} (l : list A) (n : Z) : option A :=
  if decide (0 ≤ n)%Z then l !! Z.to_nat n else None.

(** [l.slice(0, e)]: a negative end counts from the back, and the end is
    clamped to the array. *)
Definition slice0 {A} (l : list A) (e : Z) : list A :=
  let len := Z.of_nat (length l) in
  let k := if decide (e < 0)%Z then Z.max (len + e) 0 else Z.min e len in
  take (Z.to_nat k) l.

(** ** calculateWinner *)

Definition Line : Set := (nat * nat * nat)%type.

Definition lines : list Line :=
  [ (0, 1, 2);
    (3, 4, 5);
    (6, 7, 8);
    (0, 3, 6);
    (1, 4, 7);
    (2, 5, 8);
    (0, 4, 8);
    (2, 4, 6) ].

Record WinnerResult : Set := mkWinnerResult {
  winner : SquareValue;
  line : option Line
}.

(** The condition of the [if] inside the loop. *)
Definition lineTest (squares : list SquareValue) (l : Line) : bool :=
  let '(a, b, c) := l in
  truthy (read squares a)
  && strictEq (read squares a) (read squares b)
  && strictEq (read squares a) (read squares c).

(** The [for (const line of lines)] loop with its early [return]. *)
Fixpoint scanLines (squares : list SquareValue) (ls : list Line) : WinnerResult :=
  match ls with
  | [] => {| winner := Null; line := None |}
  | l :: rest =>
      if lineTest squares l
      then {| winner := read squares (l.1.1); line := Some l |}
      else scanLines squares rest
  end.

Definition calculateWinner (squares : list SquareValue) : WinnerResult :=
  scanLines squares lines.

(** ** getMoveLocation *)

Record HistoryEntry : Set := mkEntry { squares : list SquareValue }.

(** The template literal [`(${row}, ${col})`]. *)
Definition formatLocation (i : nat) : string :=
  let row := i / 3 + 1 in
  let col := i mod 3 + 1 in
  "(" +:+ pretty row +:+ ", " +:+ pretty col +:+ ")".

(** The [for (let i = 0; i < curr.length; i++)] loop, run over the indices
    it visits. *)
Fixpoint scanCells (prev curr : list SquareValue) (ixs : list nat) : option string :=
  match ixs with
  | [] => None
  | i :: rest =>
      if negb (strictEq (read curr i) (read prev i))
      then Some (formatLocation i)
      else scanCells prev curr rest
  end.

(** The outer [option] is the outcome of the call: [None] stands for the
    [TypeError] raised by [.squares] on a missing history entry.  The inner
    [option] is the returned value, [None] being [null]. *)
Definition getMoveLocation (history : list HistoryEntry) (move : nat)
  : option (option string) :=
  if decide (move = 0) then Some None
  else
    prev ← history !! (move - 1);
    curr ← history !! move;
    Some (scanCells (squares prev) (squares curr) (seq 0 (length (squares curr)))).

(** ** The state of the [Game] component *)

(** The four [React.useState] cells.  [stepNumber] is a JavaScript number;
    the embedding keeps it as an integer so that requests outside the history
    (negative ones included) can be expressed. *)
Record GameState : Set := mkGame {
  history : list HistoryEntry;
  stepNumber : Z;
  xIsNext : bool;
  isAscending : bool
}.

(** [Array(9).fill(null)] *)
Definition emptyBoard : list SquareValue := replicate 9 Null.

Definition initialState : GameState :=
  {| history := [ {| squares := emptyBoard |} ];
     stepNumber := 0;
     xIsNext := true;
     isAscending := true |}.

(** *** Values derived on each render

    A render starts with [const current = history[stepNumber]] followed by
    [current.squares]; when the entry is missing the render raises a
    [TypeError], which is the [None] of the definitions below. *)

Definition current (st : GameState) : option HistoryEntry :=
  index (history st) (stepNumber st).

Definition winnerResult (st : GameState) : option WinnerResult :=
  cur ← current st;
  Some (calculateWinner (squares cur)).

(** Text of a cell value inside a template literal. *)
Definition symbol (v : SquareValue) : string :=
  match v with
  | MarkX => "X"
  | MarkO => "O"
  | Null => "null"
  | Undefined => "undefined"
  end.

Definition status (st : GameState) : option string :=
  w ← winnerResult st;
  Some (if truthy (winner w) then "Winner: " +:+ symbol (winner w)
        else if bool_decide (stepNumber st = 9%Z) then "It's a draw!"
        else "Next player: " +:+ (if xIsNext st then "X" else "O")).

(** One [<li>] of the move list: either the emphasised text for the step
    being shown, or a button whose activation calls [jumpTo target]. *)
Inductive MoveItem : Set :=
  | CurrentMove (key : nat) (text : string)
  | JumpButton (key : nat) (target : nat) (desc : string).

(** The callback given to [history.map]. *)
Definition moveItem (hist : list HistoryEntry) (step : Z) (move : nat)
  : option MoveItem :=
  location ← getMoveLocation hist move;
  let shown := default "" location in
  if bool_decide (Z.of_nat move = step)
  then Some (CurrentMove move ("You are at move #" +:+ pretty move +:+ " " +:+ shown))
  else Some (JumpButton move move
               (if decide (move = 0) then "Go to game start"
                else "Go to move #" +:+ pretty move +:+ " " +:+ shown)).

Definition moves (st : GameState) : option (list MoveItem) :=
  _ ← current st;
  mapM (moveItem (history st) (stepNumber st)) (seq 0 (length (history st))).

(** [isAscending ? moves : moves.slice().reverse()] *)
Definition sortedMoves (st : GameState) : option (list MoveItem) :=
  ms ← moves st;
  Some (if isAscending st then ms else reverse ms).

(** The grid built by [Board]: three rows of three squares, each with its
    index [row * 3 + col], its value and its highlight flag
    ([winningSquares ? winningSquares.includes(index) : false]).  The click
    callback of a square passes that index to [onClick]. *)
Definition includes (l : Line) (i : nat) : bool :=
  let '(a, b, c) := l in
  bool_decide (a = i) || bool_decide (b = i) || bool_decide (c = i).

Definition Board (sq : list SquareValue) (winningSquares : option Line)
  : list (list (nat * SquareValue * bool)) :=
  (λ row,
     (λ col,
        let index := row * 3 + col in
        let highlight :=
          match winningSquares with
          | Some l => includes l index
          | None => false
          end in
        (index, read sq index, highlight)) <$> seq 0 3) <$> seq 0 3.

(** The indices for which [Board] creates a click callback. *)
Definition boardIndices : list nat :=
  (λ cell, cell.1.1) <$> concat (Board [] None).

(** *** Event handlers *)

(** [handleClick] closes over the [winner] of the render that created it, so
    it only exists when that render succeeded.  [None] is again an uncaught
    [TypeError]. *)
Definition handleClick (st : GameState) (i : nat) : option GameState :=
  w ← winnerResult st;
  let hist := slice0 (history st) (stepNumber st + 1) in
  cur ← hist !! (length hist - 1);
  let sq := squares cur in
  if truthy (winner w) || truthy (read sq i) then Some st
  else
    Some {| history :=
              hist ++ [ {| squares := write sq i (if xIsNext st then MarkX else MarkO) |} ];
            stepNumber := Z.of_nat (length hist);
            xIsNext := negb (xIsNext st);
            isAscending := isAscending st |}.

(** [step % 2 === 0] uses the truncating remainder. *)
Definition jumpTo (st : GameState) (step : Z) : GameState :=
  {| history := history st;
     stepNumber := step;
     xIsNext := bool_decide (Z.rem step 2 = 0%Z);
     isAscending := isAscending st |}.

(** The sort button: [setIsAscending(!isAscending)]. *)
Definition toggleSort (st : GameState) : GameState :=
  {| history := history st;
     stepNumber := stepNumber st;
     xIsNext := xIsNext st;
     isAscending := negb (isAscending st) |}.

(** *** Reachable states *)

(** The events the rendered view can deliver: a click on one of the nine
    squares of [Board], a click on a button of the move list, and a click on
    the sort button. *)
Inductive Event : Set :=
  | Click (i : nat)
  | Jump (s : Z)
  | ToggleSort.

Definition fire (st : GameState) (e : Event) : option GameState :=
  match e with
  | Click i => handleClick st i
  | Jump s => Some (jumpTo st s)
  | ToggleSort => Some (toggleSort st)
  end.

(** A click reaches [handleClick] only through one of the callbacks of
    [Board]; a jump only through a button of the move list, which has one
    entry per history index. *)
Definition offered (st : GameState) (e : Event) : bool :=
  match e with
  | Click i => bool_decide (i ∈ boardIndices)
  | Jump s => bool_decide (0 ≤ s < Z.of_nat (length (history st)))%Z
  | ToggleSort => true
  end.

Inductive reachable : GameState → Prop :=
  | reach_init : reachable initialState
  | reach_fire st e st' :
      reachable st → offered st e = true → fire st e = Some st' → reachable st'.

(** Running a whole sequence of offered events. *)
Fixpoint run (st : GameState) (es : list Event) : option GameState :=
  match es with
  | [] => Some st
  | e :: rest =>
      if offered st e then st' ← fire st e; run st' rest else None
  end.

(** *** Board measures used by the invariant *)

Fixpoint countMarks (sq : list SquareValue) : nat :=
  match sq with
  | [] => 0
  | v :: rest => (if truthy v then 1 else 0) + countMarks rest
  end.

(** A board as the data model has it: nine cells, none of them a hole. *)
Definition properBoard (sq : list SquareValue) : Prop :=
  length sq = 9 ∧ Forall (λ v, v ≠ Undefined) sq.

(** "All three cells non-empty and equal", in the words of the contract. *)
Definition winningLine (sq : list SquareValue) (l : Line) : Prop :=
  let '(a, b, c) := l in
  (truthy (read sq a) ∧ truthy (read sq b) ∧ truthy (read sq c))
  ∧ read sq a = read sq b ∧ read sq b = read sq c.

(** The invariant carried along every reachable state. *)
Definition gameInv (st : GameState) : Prop :=
  (0 ≤ stepNumber st < Z.of_nat (length (history st)))%Z
  ∧ xIsNext st = Z.even (stepNumber st)
  ∧ ∀ k e, history st !! k = Some e →
           properBoard (squares e) ∧ countMarks (squares e) = k.

(** The eight lines in grid coordinates ([index = row * 3 + col]). *)
Definition rowLine (r : nat) : Line := (r * 3, r * 3 + 1, r * 3 + 2).
Definition colLine (c : nat) : Line := (c, 3 + c, 6 + c).
Definition diagonals : list Line := [ (0, 4, 8); (2, 4, 6) ].

(** *** Sample games

    The two games worked through in the description of the program, and one
    with a jump back in time. *)

Definition play (es : list Event) : GameState :=
  default initialState (run initialState es).

(** X takes the top row on the fifth move. *)
Definition topRowGame : GameState :=
  Eval vm_compute in play [Click 0; Click 4; Click 1; Click 7; Click 2].

(** Nine moves, no three in a row. *)
Definition drawnGame : GameState :=
  Eval vm_compute in
    play [Click 0; Click 1; Click 2; Click 4; Click 3; Click 5; Click 7; Click 6; Click 8].

(** Three moves, then back to the position after the first one. *)
Definition rewoundGame : GameState :=
  Eval vm_compute in play [Click 0; Click 4; Click 1; Jump 1].

(** *** The rest of the view *)

(** [Square]: the class of the button and the text inside it.  React renders
    a [null] or [undefined] child as nothing. *)
Record SquareView : Set := mkSquareView {
  className : string;
  content : string
}.

Definition Square (value : SquareValue) (highlight : bool) : SquareView :=
  {| className := "square " +:+ (if highlight then "highlight" else "");
     content := match value with
                | MarkX => "X"
                | MarkO => "O"
                | Null | Undefined => ""
                end |}.

(** The squares [Board] returns, row by row, each with its [key]. *)
Definition boardSquares (sq : list SquareValue) (winningSquares : option Line)
  : list (list (nat * SquareView)) :=
  (λ row : list (nat * SquareValue * bool),
     (λ cell : nat * SquareValue * bool, (cell.1.1, Square cell.1.2 cell.2)) <$> row)
    <$> Board sq winningSquares.

(** The label of the sort button. *)
Definition sortLabel (st : GameState) : string :=
  "Sort " +:+ (if isAscending st then "Descending" else "Ascending").

(** What [Game] returns: the board, the status line, the sort button and the
    ordered move list. *)
Record View : Set := mkView {
  viewBoard : list (list (nat * SquareView));
  viewStatus : string;
  viewSortLabel : string;
  viewMoves : list MoveItem
}.

Definition render (st : GameState) : option View :=
  cur ← current st;
  let result := calculateWinner (squares cur) in
  shown ← sortedMoves st;
  text ← status st;
  Some {| viewBoard := boardSquares (squares cur) (line result);
          viewStatus := text;
          viewSortLabel := sortLabel st;
          viewMoves := shown |}.

(** *** Further measures *)

(** The indices of the highlighted cells of a grid, in display order. *)
Definition highlighted (grid : list (list (nat * SquareValue * bool))) : list nat :=
  (λ cell : nat * SquareValue * bool, cell.1.1)
    <$> filter (λ cell : nat * SquareValue * bool, cell.2 = true) (concat grid).

(** Exchanging the two players' marks. *)
Definition swapMarks (v : SquareValue) : SquareValue :=
  match v with
  | MarkX => MarkO
  | MarkO => MarkX
  | Null => Null
  | Undefined => Undefined
  end.

(** The symbol placed by the move made at step [k]: [xIsNext ? "X" : "O"]
    with the turn indicator of an even or odd step. *)
Definition markAt (k : nat) : SquareValue :=
  if Nat.even k then MarkX else MarkO.

(** How a history grows: each snapshot but the last has no winner, and the
    next one is that snapshot with one empty cell of the board filled by the
    symbol whose turn it was. *)
Definition grownByMoves (hist : list HistoryEntry) : Prop :=
  ∀ k e e', hist !! k = Some e → hist !! S k = Some e' →
    winner (calculateWinner (squares e)) = Null
    ∧ ∃ i, i < 9
           ∧ squares e !! i = Some Null
           ∧ squares e' = <[i := markAt k]> (squares e).

(** The number of cells of a board that hold the value [v]. *)
Fixpoint countOf (v : SquareValue) (sq : list SquareValue) : nat :=
  match sq with
  | [] => 0
  | w :: rest => (if strictEq w v then 1 else 0) + countOf v rest
  end.

(** The [key] of a list item, which is the move it stands for. *)
Definition itemKey (item : MoveItem) : nat :=
  match item with
  | CurrentMove key _ => key
  | JumpButton key _ _ => key
  end.

(** Events other than a jump. *)
Definition isJump (e : Event) : bool :=
  match e with
  | Jump _ => true
  | Click _ | ToggleSort => false
  end.

(** * Properties *)

(** ** Array primitives *)

Section Arrays.

Implicit Types (sq : list SquareValue) (i j : nat) (v : SquareValue).

Lemma read_lookup sq i v : sq !! i = Some v → read sq i = v.
Proof. unfold read. by intros ->. Qed.

Lemma read_outside sq i : length sq ≤ i → read sq i = Undefined.
Proof. intros Hi. unfold read. by rewrite lookup_ge_None_2. Qed.

Lemma truthy_cases v : truthy v = true ↔ v = MarkX ∨ v = MarkO.
Proof. destruct v; simpl; intuition congruence. Qed.

Lemma strictEq_true v w : strictEq v w = true ↔ v = w.
Proof. unfold strictEq. apply bool_decide_eq_true. Qed.

Lemma write_inside sq i v : i < length sq → write sq i v = <[i:=v]> sq.
Proof. intros Hi. unfold write. by rewrite decide_True. Qed.


Lemma read_write_other sq i j v :
  i < length sq → j ≠ i → read (write sq i v) j = read sq j.
Proof.
  intros Hi Hne. rewrite write_inside by done.
  unfold read. by rewrite list_lookup_insert_ne.
Qed.

End Arrays.

(** ** calculateWinner *)

Lemma lineTest_winningLine sq l : lineTest sq l = true ↔ winningLine sq l.
Proof.
  destruct l as [[a b] c]. unfold lineTest, winningLine.
  rewrite !andb_true_iff, !strictEq_true. split.
  - intros [[Ha Hab] Hac]. rewrite <- Hab, <- Hac, !Ha. done.
  - intros [(Ha & _ & _) [Hab Hbc]]. apply Is_true_true in Ha. by rewrite <- Hbc, <- Hab.
Qed.

Lemma scanLines_none sq ls :
  (∀ l, l ∈ ls → ¬ winningLine sq l) →
  scanLines sq ls = {| winner := Null; line := None |}.
Proof.
  induction ls as [|l ls IH]; intros Hno; simpl; [done|].
  destruct (lineTest sq l) eqn:Ht.
  - exfalso. apply (Hno l); [left | by apply lineTest_winningLine].
  - apply IH. intros l' Hin. apply Hno. by right.
Qed.

Lemma scanLines_first sq before l after :
  winningLine sq l →
  (∀ l', l' ∈ before → ¬ winningLine sq l') →
  scanLines sq (before ++ l :: after) = {| winner := read sq (l.1.1); line := Some l |}.
Proof.
  intros Hw. induction before as [|l0 before IH]; intros Hno; simpl.
  - apply lineTest_winningLine in Hw. by rewrite Hw.
  - destruct (lineTest sq l0) eqn:Ht.
    + exfalso. apply (Hno l0); [left | by apply lineTest_winningLine].
    + apply IH. intros l' Hin. apply Hno. by right.
Qed.

(** C1. [calculateWinner] walks the eight fixed lines (three rows, three
    columns, two diagonals) in their fixed order.  If a line has three
    non-empty equal cells, the result is the symbol shared by the cells of
    the first such line in that order, together with that line; if no line
    is of that kind, both [winner] and [line] are absent.  The statement
    holds for arrays of any length, nine-cell boards included. *)
Theorem calculateWinner_first_winning_line (sq : list SquareValue) :
  lines = (rowLine <$> [0; 1; 2]) ++ (colLine <$> [0; 1; 2]) ++ diagonals
  ∧ (∀ before a b c after,
        lines = before ++ (a, b, c) :: after →
        winningLine sq (a, b, c) →
        (∀ l', l' ∈ before → ¬ winningLine sq l') →
        calculateWinner sq = {| winner := read sq a; line := Some (a, b, c) |}
        ∧ read sq a = read sq b ∧ read sq a = read sq c
        ∧ (read sq a = MarkX ∨ read sq a = MarkO))
  ∧ ((∀ l, l ∈ lines → ¬ winningLine sq l) →
        calculateWinner sq = {| winner := Null; line := None |}).
Proof.
  split; [reflexivity|]. split.
  - intros before a b c after Hl Hw Hno. unfold calculateWinner. rewrite Hl.
    split; [by apply (scanLines_first sq before (a, b, c) after)|].
    destruct Hw as [(Ha & _ & _) [Hab Hbc]].
    split; [done|]. split; [congruence|].
    apply truthy_cases. by apply Is_true_true.
  - apply scanLines_none.
Qed.

(** The top row is won by X although the middle column already holds two
    O marks: the row comes first and is reported. *)
Lemma calculateWinner_first_winning_line_witness :
  calculateWinner [MarkX; MarkX; MarkX; Null; MarkO; Null; Null; MarkO; Null]
  = {| winner := MarkX; line := Some (0, 1, 2) |}.
Proof.
  pose proof (calculateWinner_first_winning_line
                [MarkX; MarkX; MarkX; Null; MarkO; Null; Null; MarkO; Null]) as (_ & Hfirst & _).
  apply (Hfirst [] 0 1 2 (tail lines)).
  - reflexivity.
  - vm_compute. tauto.
  - intros l' Hin. inversion Hin.
Defined.

(** ** Integer indices *)

Section Indices.

Context {A : Type}.
Implicit Types (l : list A) (n : Z).

Lemma index_inside l n :
  (0 ≤ n < Z.of_nat (length l))%Z → index l n = l !! Z.to_nat n ∧ is_Some (index l n).
Proof.
  intros Hn. unfold index. rewrite decide_True by lia.
  split; [done|]. apply lookup_lt_is_Some. lia.
Qed.

Lemma index_outside l n :
  (n < 0 ∨ Z.of_nat (length l) ≤ n)%Z → index l n = None.
Proof.
  intros Hn. unfold index. case_decide; [|done].
  apply lookup_ge_None. lia.
Qed.

Lemma index_Some l n x :
  index l n = Some x → (0 ≤ n < Z.of_nat (length l))%Z ∧ l !! Z.to_nat n = Some x.
Proof.
  unfold index. case_decide; [|done]. intros Hx.
  split; [|done]. apply lookup_lt_Some in Hx. lia.
Qed.

Lemma slice0_inside l n :
  (0 ≤ n < Z.of_nat (length l))%Z → slice0 l (n + 1) = take (S (Z.to_nat n)) l.
Proof.
  intros Hn. unfold slice0. rewrite decide_False by lia.
  f_equal. lia.
Qed.

End Indices.

Lemma rem2_even (s : Z) : bool_decide (Z.rem s 2 = 0%Z) = Z.even s.
Proof.
  assert (Z.even s = Z.even (Z.rem s 2)) as ->.
  { transitivity (Z.even (Z.rem s 2 + 2 * (s ÷ 2))).
    - f_equal. rewrite Z.add_comm. apply Z.quot_rem'.
    - apply Z.even_add_mul_2. }
  assert (Z.rem s 2 = 0 ∨ Z.rem s 2 = 1 ∨ Z.rem s 2 = -1)%Z as [-> | [-> | ->]]; [|done..].
  pose proof (Z.rem_bound_abs s 2).
  destruct (Z.le_gt_cases 0 s) as [Hs | Hs].
  - pose proof (Z.rem_bound_pos s 2 Hs). lia.
  - pose proof (Z.rem_nonpos s 2). lia.
Qed.

(** ** Counting the marks on a board *)

Section Marks.

Implicit Types (sq : list SquareValue) (i : nat) (v : SquareValue).

Lemma countMarks_le_length sq : countMarks sq ≤ length sq.
Proof. induction sq as [|v sq IH]; simpl; [done|]. destruct (truthy v); lia. Qed.

Lemma countMarks_insert sq i v :
  sq !! i = Some Null → truthy v = true →
  countMarks (<[i:=v]> sq) = S (countMarks sq).
Proof.
  revert i. induction sq as [|w sq IH]; intros [|i] Hi Hv; simplify_eq/=.
  - by rewrite Hv.
  - by rewrite (IH i).
Qed.

Lemma countMarks_replicate_Null n : countMarks (replicate n Null) = 0.
Proof. induction n as [|n IH]; simpl; done. Qed.

Lemma countMarks_zero sq :
  countMarks sq = 0 → Forall (λ v, v ≠ Undefined) sq →
  sq = replicate (length sq) Null.
Proof.
  induction sq as [|v sq IH]; simpl; [done|].
  intros Hc Hu. apply Forall_cons in Hu as [Hv Hu].
  destruct v; simpl in Hc; try done. f_equal. by apply IH.
Qed.

Lemma countMarks_full sq i :
  countMarks sq = length sq → i < length sq → truthy (read sq i) = true.
Proof.
  revert i. induction sq as [|v sq IH]; intros i Hc Hi; simpl in *; [lia|].
  pose proof (countMarks_le_length sq).
  destruct (truthy v) eqn:Hv; [|lia].
  destruct i as [|i]; [done|].
  apply IH; lia.
Qed.

Lemma falsy_proper_is_Null sq i :
  properBoard sq → i < 9 → truthy (read sq i) = false → sq !! i = Some Null.
Proof.
  intros [Hlen Hu] Hi Hf.
  destruct (lookup_lt_is_Some_2 sq i) as [v Hv]; [lia|].
  rewrite (read_lookup _ _ _ Hv) in Hf.
  pose proof (Forall_lookup_1 _ _ _ _ Hu Hv) as Hne.
  by destruct v.
Qed.

Lemma properBoard_write sq i v :
  properBoard sq → i < 9 → v ≠ Undefined → properBoard (write sq i v).
Proof.
  intros [Hlen Hu] Hi Hv. rewrite write_inside by lia. split.
  - by rewrite length_insert.
  - by apply Forall_insert.
Qed.

End Marks.

(** ** The handlers on states whose step is inside the history *)

Lemma current_Some st cur :
  current st = Some cur →
  (0 ≤ stepNumber st < Z.of_nat (length (history st)))%Z
  ∧ history st !! Z.to_nat (stepNumber st) = Some cur.
Proof. apply index_Some. Qed.

Lemma handleClick_inside st cur i :
  current st = Some cur →
  handleClick st i =
    Some (if truthy (winner (calculateWinner (squares cur))) || truthy (read (squares cur) i)
          then st
          else {| history :=
                    take (S (Z.to_nat (stepNumber st))) (history st)
                    ++ [ {| squares := write (squares cur) i (if xIsNext st then MarkX else MarkO) |} ];
                  stepNumber := stepNumber st + 1;
                  xIsNext := negb (xIsNext st);
                  isAscending := isAscending st |}).
Proof.
  intros Hcur. destruct (current_Some _ _ Hcur) as [Hrange Hlook].
  unfold handleClick, winnerResult. rewrite Hcur. simpl.
  rewrite slice0_inside by done.
  rewrite length_take_le by lia.
  replace (S (Z.to_nat (stepNumber st)) - 1) with (Z.to_nat (stepNumber st)) by lia.
  rewrite lookup_take_lt by lia. rewrite Hlook. simpl.
  destruct (truthy _ || truthy _); [done|].
  do 2 f_equal. lia.
Qed.

(** ** The invariant *)

Lemma gameInv_initial : gameInv initialState.
Proof.
  split; [simpl; lia|]. split; [done|].
  intros k e Hk. destruct k as [|k]; simplify_eq/=.
  split; [|done]. split; [done|].
  unfold emptyBoard. repeat constructor; done.
Qed.

Lemma gameInv_current st : gameInv st → is_Some (current st).
Proof. intros [Hrange _]. by apply index_inside. Qed.

Lemma gameInv_handleClick st i st' :
  gameInv st → i < 9 → handleClick st i = Some st' → gameInv st'.
Proof.
  intros Hinv Hi Hclick.
  destruct (gameInv_current st Hinv) as [cur Hcur].
  rewrite (handleClick_inside st cur i Hcur) in Hclick.
  destruct (current_Some _ _ Hcur) as [Hrange Hlook].
  destruct Hinv as (_ & Hturn & Hboards).
  destruct (Hboards _ _ Hlook) as [Hproper Hcount].
  destruct (truthy (winner (calculateWinner (squares cur)))) eqn:Hw; simpl in Hclick;
    [by simplify_eq|].
  destruct (truthy (read (squares cur) i)) eqn:Hocc; simpl in Hclick;
    simplify_eq; [done|].
  assert (truthy (if xIsNext st then MarkX else MarkO) = true) as Hmark
    by (by destruct (xIsNext st)).
  split; [|split]; simpl.
  - rewrite length_app, length_take_le by lia. simpl. lia.
  - rewrite Hturn, Z.add_1_r, Z.even_succ, <- Z.negb_even. done.
  - intros k e Hk. apply lookup_app_Some in Hk as [Hk | [Hge Hk]].
    + apply lookup_take_Some in Hk as [Hk _]. by apply Hboards.
    + rewrite length_take_le in Hge, Hk by lia.
      apply list_lookup_singleton_Some in Hk as [Hk <-]. simpl.
      split.
      * apply properBoard_write; [done..|]. by destruct (xIsNext st).
      * rewrite write_inside by (destruct Hproper; lia).
        rewrite countMarks_insert; [lia| |done].
        by apply falsy_proper_is_Null.
Qed.

Lemma gameInv_jumpTo st s :
  gameInv st → (0 ≤ s < Z.of_nat (length (history st)))%Z → gameInv (jumpTo st s).
Proof.
  intros (_ & _ & Hboards) Hs. split; [done|]. split; [|done].
  simpl. apply rem2_even.
Qed.

Lemma gameInv_toggleSort st : gameInv st → gameInv (toggleSort st).
Proof. intros (? & ? & ?). done. Qed.

Lemma boardIndices_range i : i ∈ boardIndices ↔ i < 9.
Proof.
  change boardIndices with (seq 0 9). rewrite elem_of_seq. lia.
Qed.

Lemma reachable_gameInv st : reachable st → gameInv st.
Proof.
  induction 1 as [|st e st' _ IH Hoff Hfire]; [apply gameInv_initial|].
  destruct e as [i | s |]; simpl in *.
  - apply bool_decide_eq_true, boardIndices_range in Hoff.
    by eapply gameInv_handleClick.
  - apply bool_decide_eq_true in Hoff. simplify_eq. by apply gameInv_jumpTo.
  - simplify_eq. by apply gameInv_toggleSort.
Qed.

Lemma run_reachable es : ∀ st st', reachable st → run st es = Some st' → reachable st'.
Proof.
  induction es as [|e es IH]; intros st st' Hr Hrun; simpl in Hrun; [by simplify_eq|].
  destruct (offered st e) eqn:Hoff; [|done].
  destruct (fire st e) as [st1|] eqn:Hfire; [|done]. simpl in Hrun.
  apply (IH st1); [|done]. by eapply reach_fire.
Qed.

Lemma play_reachable es st : run initialState es = Some st → reachable st.
Proof. apply run_reachable, reach_init. Qed.

Lemma topRowGame_reachable : reachable topRowGame.
Proof. by apply (play_reachable [Click 0; Click 4; Click 1; Click 7; Click 2]). Qed.

Lemma drawnGame_reachable : reachable drawnGame.
Proof.
  by apply (play_reachable
              [Click 0; Click 1; Click 2; Click 4; Click 3; Click 5; Click 7; Click 6; Click 8]).
Qed.

Lemma rewoundGame_reachable : reachable rewoundGame.
Proof. by apply (play_reachable [Click 0; Click 4; Click 1; Jump 1]). Qed.

Lemma reachable_current st : reachable st → is_Some (current st).
Proof. intros Hr. by apply gameInv_current, reachable_gameInv. Qed.

Lemma scanLines_winner sq ls :
  winner (scanLines sq ls) = Null ∨ truthy (winner (scanLines sq ls)) = true.
Proof.
  induction ls as [|[[a b] c] ls IH]; cbn [scanLines]; [by left|].
  destruct (lineTest sq (a, b, c)) eqn:Ht; [|exact IH].
  right. cbn [winner fst]. unfold lineTest in Ht.
  by apply andb_true_iff in Ht as [[Ha _]%andb_true_iff _].
Qed.

Lemma calculateWinner_winner sq :
  winner (calculateWinner sq) = Null
  ∨ winner (calculateWinner sq) = MarkX
  ∨ winner (calculateWinner sq) = MarkO.
Proof.
  destruct (scanLines_winner sq lines) as [Hn | Ht]; [by left|].
  right. by apply truthy_cases.
Qed.

(** ** Making a move *)

(** C2. In a reachable state whose current snapshot has no winner and whose
    cell [i] is empty, a move at [i] succeeds; the new history is the old one
    cut to [stepNumber + 1] entries followed by exactly one new snapshot; the
    new snapshot is the current one with cell [i] set to the active symbol
    (X on an even step, O on an odd one); the current step becomes the last
    index of the new history.  Jumping and toggling the sort order leave the
    history, and so its length, as it was. *)
Theorem handleClick_valid_move st cur i :
  reachable st →
  current st = Some cur →
  calculateWinner (squares cur) = {| winner := Null; line := None |} →
  squares cur !! i = Some Null →
  (∃ st' new,
      handleClick st i = Some st'
      ∧ history st' = take (Z.to_nat (stepNumber st) + 1) (history st) ++ [new]
      ∧ length (take (Z.to_nat (stepNumber st) + 1) (history st))
        = Z.to_nat (stepNumber st) + 1
      ∧ squares new = <[i := if Z.even (stepNumber st) then MarkX else MarkO]> (squares cur)
      ∧ stepNumber st' = (Z.of_nat (length (history st')) - 1)%Z
      ∧ stepNumber st' = (stepNumber st + 1)%Z)
  ∧ (∀ s, history (jumpTo st s) = history st)
  ∧ history (toggleSort st) = history st.
Proof.
  intros Hr Hcur Hnow Hcell. split; [|split; [intros s; reflexivity | reflexivity]].
  pose proof (reachable_gameInv st Hr) as (Hrange & Hturn & _).
  eexists _, _. split.
  { rewrite (handleClick_inside st cur i Hcur).
    rewrite Hnow, (read_lookup _ _ _ Hcell). simpl. reflexivity. }
  simpl. rewrite Nat.add_1_r.
  split; [done|]. split; [apply length_take_le; lia|].
  split; [|split; [|done]].
  - rewrite write_inside by (by eapply lookup_lt_Some). by rewrite Hturn.
  - rewrite length_app, length_take_le by lia. simpl. lia.
Qed.

(** After three moves and a jump back to step 1, a move at the free cell 8
    drops the two later snapshots and appends one. *)
Lemma handleClick_valid_move_witness :
  ∃ st' new,
    handleClick rewoundGame 8 = Some st'
    ∧ history st' = take 2 (history rewoundGame) ++ [new]
    ∧ squares new = [MarkX; Null; Null; Null; Null; Null; Null; Null; MarkO]
    ∧ stepNumber st' = 2%Z.
Proof.
  destruct (handleClick_valid_move rewoundGame
              {| squares := [MarkX; Null; Null; Null; Null; Null; Null; Null; Null] |} 8
              rewoundGame_reachable eq_refl eq_refl eq_refl)
    as [(st' & new & Hclick & Hhist & _ & Hnew & _ & Hstep) _].
  exists st', new. done.
Defined.

(** C3. In a reachable state the current snapshot exists, and a move at an
    occupied cell, or any move while that snapshot has a winner, returns the
    very same state: history, step, turn indicator and sort flag are all as
    before. *)
Theorem handleClick_ignored st :
  reachable st →
  ∃ cur,
    current st = Some cur
    ∧ ∀ i,
        (read (squares cur) i = MarkX ∨ read (squares cur) i = MarkO)
        ∨ winner (calculateWinner (squares cur)) ≠ Null →
        handleClick st i = Some st.
Proof.
  intros Hr. destruct (reachable_current st Hr) as [cur Hcur].
  exists cur. split; [done|]. intros i Hguard.
  rewrite (handleClick_inside st cur i Hcur).
  destruct Hguard as [Hocc | Hwon].
  - apply truthy_cases in Hocc. rewrite Hocc. by rewrite orb_true_r.
  - destruct (calculateWinner_winner (squares cur)) as [Hn | Hw]; [done|].
    apply truthy_cases in Hw. by rewrite Hw.
Qed.

(** Once X has the top row, a click on the free cell 8 changes nothing. *)
Lemma handleClick_ignored_witness : handleClick topRowGame 8 = Some topRowGame.
Proof.
  destruct (handleClick_ignored topRowGame topRowGame_reachable) as (cur & Hcur & Hignored).
  apply Hignored. right.
  vm_compute in Hcur. injection Hcur as <-. vm_compute. discriminate.
Defined.

(** ** Turn indicator and status *)

(** C4. In every state reachable from the initial one by clicks on the
    board, jumps to existing history indices and sort toggles, the stored
    turn indicator is the parity of the current step: X is next exactly when
    the step is even. *)
Theorem xIsNext_is_step_parity st :
  reachable st →
  xIsNext st = Z.even (stepNumber st)
  ∧ (xIsNext st = true ↔ Z.Even (stepNumber st)).
Proof.
  intros Hr. destruct (reachable_gameInv st Hr) as (_ & Hturn & _).
  split; [done|]. by rewrite Hturn, Z.even_spec.
Qed.

Lemma xIsNext_is_step_parity_witness :
  xIsNext rewoundGame = Z.even 1 ∧ (xIsNext rewoundGame = true ↔ Z.Even 1).
Proof. exact (xIsNext_is_step_parity rewoundGame rewoundGame_reachable). Defined.

(** C5. In a reachable state the status line is ["Winner: X"] or
    ["Winner: O"] when [calculateWinner] reports that symbol for the current
    snapshot; without a winner it is ["It's a draw!"] when the current step
    is 9, and otherwise ["Next player: X"] on an even step and
    ["Next player: O"] on an odd one. *)
Theorem status_text st :
  reachable st →
  ∃ cur,
    current st = Some cur
    ∧ let w := winner (calculateWinner (squares cur)) in
      (w = MarkX ∨ w = MarkO ∨ w = Null)
      ∧ (w = MarkX → status st = Some "Winner: X")
      ∧ (w = MarkO → status st = Some "Winner: O")
      ∧ (w = Null → stepNumber st = 9%Z → status st = Some "It's a draw!")
      ∧ (w = Null → stepNumber st ≠ 9%Z → Z.even (stepNumber st) = true →
           status st = Some "Next player: X")
      ∧ (w = Null → stepNumber st ≠ 9%Z → Z.even (stepNumber st) = false →
           status st = Some "Next player: O").
Proof.
  intros Hr. destruct (reachable_current st Hr) as [cur Hcur].
  destruct (reachable_gameInv st Hr) as (_ & Hturn & _).
  exists cur. split; [done|]. cbv zeta.
  split; [destruct (calculateWinner_winner (squares cur)); tauto|].
  unfold status, winnerResult. rewrite Hcur. cbn [mbind option_bind].
  repeat split.
  - by intros ->.
  - by intros ->.
  - intros -> ->. done.
  - intros -> Hne Hev. cbn [truthy]. rewrite bool_decide_eq_false_2 by done.
    by rewrite Hturn, Hev.
  - intros -> Hne Hev. cbn [truthy]. rewrite bool_decide_eq_false_2 by done.
    by rewrite Hturn, Hev.
Qed.

(** The drawn game shows the draw text at step 9. *)
Lemma status_text_witness : status drawnGame = Some "It's a draw!".
Proof.
  destruct (status_text drawnGame drawnGame_reachable) as (cur & Hcur & Hstatus).
  vm_compute in Hcur. injection Hcur as <-.
  destruct Hstatus as (_ & _ & _ & Hdraw & _).
  apply Hdraw; reflexivity.
Defined.

(** ** Time travel *)

(** C6. For every state (reachable or not) and every requested step [s],
    [jumpTo] makes [s] the current step, sets the turn indicator to the
    parity of [s], and leaves the history (contents and length) and the sort
    flag as they were. *)
Theorem jumpTo_frame st s :
  stepNumber (jumpTo st s) = s
  ∧ xIsNext (jumpTo st s) = Z.even s
  ∧ history (jumpTo st s) = history st
  ∧ length (history (jumpTo st s)) = length (history st)
  ∧ isAscending (jumpTo st s) = isAscending st.
Proof. repeat split. apply rem2_even. Qed.

(** C9. [jumpTo] stores whatever step it is given.  As long as every jump
    comes from the move list, so that its target is an existing history
    index, the lookup [history[stepNumber]] succeeds in every reachable
    state; a target outside the history, negative or too large, leaves a
    state in which that lookup finds nothing. *)
Theorem jumpTo_unchecked st :
  reachable st →
  is_Some (current st)
  ∧ (∀ s, stepNumber (jumpTo st s) = s)
  ∧ (∀ s, (s < 0 ∨ Z.of_nat (length (history st)) ≤ s)%Z → current (jumpTo st s) = None)
  ∧ current (jumpTo st (Z.of_nat (length (history st)))) = None.
Proof.
  intros Hr. split; [by apply reachable_current|]. split; [done|].
  assert (∀ s, (s < 0 ∨ Z.of_nat (length (history st)) ≤ s)%Z →
               current (jumpTo st s) = None) as Hout.
  { intros s Hs. unfold current. simpl. by apply index_outside. }
  split; [done|]. apply Hout. lia.
Qed.

Lemma jumpTo_unchecked_witness :
  is_Some (current topRowGame) ∧ current (jumpTo topRowGame 6) = None.
Proof.
  destruct (jumpTo_unchecked topRowGame topRowGame_reachable) as (Hin & _ & _ & Hout).
  split; [exact Hin | exact Hout].
Defined.

(** ** getMoveLocation *)

Section MoveLocation.

Implicit Types (prev curr : list SquareValue) (hist : list HistoryEntry).

Lemma scanCells_first prev curr len : ∀ start i,
  start ≤ i < start + len →
  read curr i ≠ read prev i →
  (∀ j, start ≤ j < i → read curr j = read prev j) →
  scanCells prev curr (seq start len) = Some (formatLocation i).
Proof.
  induction len as [|len IH]; intros start i Hi Hdiff Hsame; [lia|].
  cbn [seq scanCells]. unfold strictEq.
  destruct (decide (start = i)) as [-> | Hne].
  - by rewrite bool_decide_eq_false_2.
  - rewrite bool_decide_eq_true_2 by (apply Hsame; lia). cbn [negb].
    apply IH; [lia | done |]. intros j Hj. apply Hsame. lia.
Qed.

Lemma scanCells_none prev curr len : ∀ start,
  (∀ j, start ≤ j < start + len → read curr j = read prev j) →
  scanCells prev curr (seq start len) = None.
Proof.
  induction len as [|len IH]; intros start Hsame; [done|].
  cbn [seq scanCells]. unfold strictEq.
  rewrite bool_decide_eq_true_2 by (apply Hsame; lia). cbn [negb].
  apply IH. intros j Hj. apply Hsame. lia.
Qed.

Lemma formatLocation_grid r c :
  c < 3 →
  formatLocation (r * 3 + c) = "(" +:+ pretty (r + 1) +:+ ", " +:+ pretty (c + 1) +:+ ")".
Proof.
  intros Hc. unfold formatLocation. cbv zeta.
  assert ((r * 3 + c) / 3 = r) as ->.
  { rewrite Nat.div_add_l by done. rewrite Nat.div_small by done. lia. }
  assert ((r * 3 + c) mod 3 = c) as ->.
  { rewrite Nat.add_comm, Nat.Div0.mod_add. by apply Nat.mod_small. }
  done.
Qed.

Lemma getMoveLocation_total hist m :
  m < length hist → is_Some (getMoveLocation hist m).
Proof.
  intros Hm. unfold getMoveLocation. case_decide; [done|].
  destruct (lookup_lt_is_Some_2 hist (m - 1)) as [prev ->]; [lia|].
  destruct (lookup_lt_is_Some_2 hist m) as [curr ->]; [lia|].
  done.
Qed.

End MoveLocation.

(** C7. For move 0 [getMoveLocation] returns no location.  For a move
    [m > 0] of the history it compares snapshot [m] with snapshot [m - 1]
    cell by cell, in index order over the cells of snapshot [m]: at the first
    index where they differ, in row [r] and column [c] of the grid counted
    from 0, it returns the text ["(r+1, c+1)"]; when no cell differs it
    returns no location. *)
Theorem getMoveLocation_first_difference (hist : list HistoryEntry) :
  getMoveLocation hist 0 = Some None
  ∧ ∀ m prev curr,
      0 < m →
      hist !! (m - 1) = Some prev →
      hist !! m = Some curr →
      (∀ r c,
          c < 3 →
          r * 3 + c < length (squares curr) →
          read (squares curr) (r * 3 + c) ≠ read (squares prev) (r * 3 + c) →
          (∀ j, j < r * 3 + c → read (squares curr) j = read (squares prev) j) →
          getMoveLocation hist m
          = Some (Some ("(" +:+ pretty (r + 1) +:+ ", " +:+ pretty (c + 1) +:+ ")")))
      ∧ ((∀ j, j < length (squares curr) → read (squares curr) j = read (squares prev) j) →
          getMoveLocation hist m = Some None).
Proof.
  split; [done|]. intros m prev curr Hm Hprev Hcurr.
  unfold getMoveLocation. rewrite decide_False by lia.
  rewrite Hprev, Hcurr. cbn [mbind option_bind]. split.
  - intros r c Hc Hin Hdiff Hsame. do 2 f_equal.
    rewrite <- formatLocation_grid by done.
    apply scanCells_first; [lia | done |]. intros j Hj. apply Hsame. lia.
  - intros Hsame. do 2 f_equal. apply scanCells_none.
    intros j Hj. apply Hsame. lia.
Qed.

(** The second move of the sample game went to the centre: row 2, column 2. *)
Lemma getMoveLocation_first_difference_witness :
  getMoveLocation (history topRowGame) 2 = Some (Some "(2, 2)").
Proof.
  destruct (getMoveLocation_first_difference (history topRowGame)) as [_ Hmove].
  destruct (Hmove 2
              {| squares := [MarkX; Null; Null; Null; Null; Null; Null; Null; Null] |}
              {| squares := [MarkX; Null; Null; Null; MarkO; Null; Null; Null; Null] |})
    as [Hfirst _]; [lia | reflexivity | reflexivity |].
  apply (Hfirst 1 1); [lia | simpl; lia | discriminate |].
  intros j Hj. do 4 (destruct j as [|j]; [reflexivity|]). simpl in Hj. lia.
Defined.

(** ** The move list and its order *)

Lemma moves_total st : reachable st → is_Some (moves st).
Proof.
  intros Hr. destruct (reachable_current st Hr) as [cur Hcur].
  unfold moves. rewrite Hcur. cbn [mbind option_bind].
  apply mapM_is_Some. apply Forall_forall. intros m Hm.
  apply elem_of_seq in Hm. unfold compose, moveItem.
  destruct (getMoveLocation_total (history st) m) as [loc ->]; [lia|].
  cbn [mbind option_bind]. by case_bool_decide.
Qed.

(** C8. Toggling the sort order flips the flag.  The displayed list after
    the toggle is the reverse of the displayed list before it: with the flag
    on the view shows the move list as computed, with the flag off its
    reversal.  The move list itself, the history, the current step and the
    turn indicator are the same before and after. *)
Theorem toggleSort_frame st :
  reachable st →
  isAscending (toggleSort st) = negb (isAscending st)
  ∧ (∃ ms,
        moves st = Some ms
        ∧ moves (toggleSort st) = Some ms
        ∧ length ms = length (history st)
        ∧ sortedMoves st = Some (if isAscending st then ms else reverse ms)
        ∧ sortedMoves (toggleSort st) = Some (if isAscending st then reverse ms else ms))
  ∧ (∃ shown,
        sortedMoves st = Some shown
        ∧ sortedMoves (toggleSort st) = Some (reverse shown))
  ∧ history (toggleSort st) = history st
  ∧ stepNumber (toggleSort st) = stepNumber st
  ∧ xIsNext (toggleSort st) = xIsNext st.
Proof.
  intros Hr. destruct (moves_total st Hr) as [ms Hms].
  assert (moves (toggleSort st) = Some ms) as Hms' by done.
  assert (length ms = length (history st)) as Hlen.
  { unfold moves in Hms. destruct (current st); [|done].
    cbn [mbind option_bind] in Hms. apply length_mapM in Hms.
    by rewrite length_seq in Hms. }
  split; [done|]. split; [|split; [|done]].
  - exists ms. unfold sortedMoves. rewrite Hms', Hms. cbn [mbind option_bind].
    repeat split; try done. simpl. by destruct (isAscending st).
  - unfold sortedMoves. rewrite Hms', Hms. cbn [mbind option_bind]. simpl.
    eexists. split; [done|].
    destruct (isAscending st); simpl; [done|]. by rewrite reverse_involutive.
Qed.

Lemma toggleSort_frame_witness :
  sortedMoves rewoundGame
  = Some [ JumpButton 0 0 "Go to game start";
           CurrentMove 1 "You are at move #1 (1, 1)";
           JumpButton 2 2 "Go to move #2 (2, 2)";
           JumpButton 3 3 "Go to move #3 (1, 2)" ]
  ∧ sortedMoves (toggleSort rewoundGame)
    = Some [ JumpButton 3 3 "Go to move #3 (1, 2)";
             JumpButton 2 2 "Go to move #2 (2, 2)";
             CurrentMove 1 "You are at move #1 (1, 1)";
             JumpButton 0 0 "Go to game start" ].
Proof.
  destruct (toggleSort_frame rewoundGame rewoundGame_reachable)
    as (_ & _ & (shown & Hbefore & Hafter) & _).
  rewrite Hafter.
  assert (shown = [ JumpButton 0 0 "Go to game start";
                    CurrentMove 1 "You are at move #1 (1, 1)";
                    JumpButton 2 2 "Go to move #2 (2, 2)";
                    JumpButton 3 3 "Go to move #3 (1, 2)" ]) as ->.
  { vm_compute in Hbefore. by injection Hbefore. }
  split; reflexivity.
Defined.

(** ** Shape of the history *)

(** C10. In a reachable state the history is not empty, its first snapshot
    is the all-empty board, and the snapshot at index [k] is a nine-cell
    board holding exactly [k] marks.  So when the current step is 9 every
    cell of the displayed board holds a mark, and a click on any of the nine
    cells is stopped by the occupied-cell test and returns the same state,
    with or without a winner. *)
Theorem history_shape st :
  reachable st →
  history st ≠ []
  ∧ history st !! 0 = Some {| squares := emptyBoard |}
  ∧ (∀ k e, history st !! k = Some e →
            properBoard (squares e) ∧ countMarks (squares e) = k)
  ∧ (stepNumber st = 9%Z →
     ∃ cur,
       current st = Some cur
       ∧ ∀ i, i < 9 →
              (read (squares cur) i = MarkX ∨ read (squares cur) i = MarkO)
              ∧ truthy (read (squares cur) i) = true
              ∧ handleClick st i = Some st).
Proof.
  intros Hr. pose proof (reachable_gameInv st Hr) as (Hrange & _ & Hboards).
  split; [|split; [|split; [done|]]].
  - intros Hnil. rewrite Hnil in Hrange. simpl in Hrange. lia.
  - destruct (lookup_lt_is_Some_2 (history st) 0) as [[sq] Hsq]; [lia|].
    destruct (Hboards _ _ Hsq) as [[Hlen Hu] Hcount]. simpl in *.
    rewrite Hsq. do 2 f_equal.
    rewrite (countMarks_zero sq Hcount Hu). by rewrite Hlen.
  - intros Hnine. destruct (reachable_current st Hr) as [cur Hcur].
    exists cur. split; [done|]. intros i Hi.
    destruct (current_Some _ _ Hcur) as [_ Hlook].
    destruct (Hboards _ _ Hlook) as [[Hlen _] Hcount].
    assert (truthy (read (squares cur) i) = true) as Hocc.
    { apply countMarks_full; [|lia]. rewrite Hcount, Hlen, Hnine. done. }
    split; [by apply truthy_cases|]. split; [done|].
    rewrite (handleClick_inside st cur i Hcur), Hocc. by rewrite orb_true_r.
Qed.

(** The drawn game: nine marks at step 9, no winner, and the click on the
    centre is still ignored. *)
Lemma history_shape_witness :
  length (history drawnGame) = 10
  ∧ winnerResult drawnGame = Some {| winner := Null; line := None |}
  ∧ handleClick drawnGame 4 = Some drawnGame.
Proof.
  destruct (history_shape drawnGame drawnGame_reachable) as (_ & _ & _ & Hfull).
  destruct (Hfull eq_refl) as (cur & _ & Hclicks).
  split; [reflexivity|]. split; [reflexivity|].
  apply (Hclicks 4). lia.
Defined.

(** ** The worked games *)

(** Moves at 0, 4, 1, 7, 2: X holds the top row, the status names X, and the
    three winning squares of the board are highlighted. *)
Example topRowGame_outcome :
  winnerResult topRowGame = Some {| winner := MarkX; line := Some (0, 1, 2) |}
  ∧ status topRowGame = Some "Winner: X"
  ∧ Board [MarkX; MarkX; MarkX; Null; MarkO; Null; Null; MarkO; Null] (Some (0, 1, 2))
    = [ [ (0, MarkX, true); (1, MarkX, true); (2, MarkX, true) ];
        [ (3, Null, false); (4, MarkO, false); (5, Null, false) ];
        [ (6, Null, false); (7, MarkO, false); (8, Null, false) ] ].
Proof. repeat split. Qed.

(** A click past the nine squares would grow the array; [Board] never
    delivers one. *)
Example handleClick_outside_board :
  (st ← handleClick initialState 10; history st !! 1)
  = Some {| squares := replicate 9 Null ++ [Undefined; MarkX] |}
  ∧ offered initialState (Click 10) = false.
Proof. split; reflexivity. Qed.

(** Outside the history [getMoveLocation] raises: the entry it dereferences
    is missing.  The move list never asks for such a move. *)
Example getMoveLocation_outside_history :
  getMoveLocation (history initialState) 1 = None
  ∧ getMoveLocation (history initialState) 2 = None.
Proof. split; reflexivity. Qed.

(** * Further properties of the code *)

(** ** calculateWinner: the two fields of the result *)

Lemma scanLines_result sq ls :
  match line (scanLines sq ls) with
  | Some l =>
      l ∈ ls ∧ lineTest sq l = true
      ∧ winner (scanLines sq ls) = read sq (l.1.1)
  | None =>
      winner (scanLines sq ls) = Null ∧ ∀ l, l ∈ ls → lineTest sq l = false
  end.
Proof.
  induction ls as [|l0 ls IH]; cbn [scanLines].
  - split; [done|]. intros l Hin. inversion Hin.
  - destruct (lineTest sq l0) eqn:Ht; cbn [line winner].
    + split; [left|done].
    + destruct (line (scanLines sq ls)) as [l|].
      * destruct IH as (Hin & Hl & Hw). split; [by right|done].
      * destruct IH as [Hw Hno]. split; [done|].
        intros l Hin. apply elem_of_cons in Hin as [-> | Hin]; [done|by apply Hno].
Qed.

Lemma calculateWinner_result sq :
  (line (calculateWinner sq) = None
   ∧ winner (calculateWinner sq) = Null
   ∧ ∀ l, l ∈ lines → lineTest sq l = false)
  ∨ (∃ a b c,
        line (calculateWinner sq) = Some (a, b, c)
        ∧ (a, b, c) ∈ lines
        ∧ read sq a = winner (calculateWinner sq)
        ∧ read sq b = winner (calculateWinner sq)
        ∧ read sq c = winner (calculateWinner sq)
        ∧ truthy (winner (calculateWinner sq)) = true).
Proof.
  unfold calculateWinner. pose proof (scanLines_result sq lines) as Hres.
  destruct (line (scanLines sq lines)) as [[[a b] c]|].
  - right. exists a, b, c. destruct Hres as (Hin & Ht & Hw). cbn [fst] in Hw.
    apply lineTest_winningLine in Ht as [(Ha & _ & _) [Hab Hbc]].
    rewrite Hw. repeat split; try done; try congruence. by apply Is_true_true.
  - left. destruct Hres as [Hw Hno]. done.
Qed.

(** [calculateWinner] never returns a winner without a line or a line
    without a winner.  A returned line is one of the eight, its three cells
    all hold the returned symbol, and that symbol is X or O; when no line is
    returned the winner is [null] and none of the eight lines is won. *)
Theorem calculateWinner_fields_agree (sq : list SquareValue) :
  match line (calculateWinner sq) with
  | Some (a, b, c) =>
      (a, b, c) ∈ lines
      ∧ read sq a = winner (calculateWinner sq)
      ∧ read sq b = winner (calculateWinner sq)
      ∧ read sq c = winner (calculateWinner sq)
      ∧ (winner (calculateWinner sq) = MarkX ∨ winner (calculateWinner sq) = MarkO)
  | None =>
      winner (calculateWinner sq) = Null
      ∧ ∀ l, l ∈ lines → ¬ winningLine sq l
  end.
Proof.
  destruct (calculateWinner_result sq)
    as [(-> & Hw & Hno) | (a & b & c & -> & Hin & Ha & Hb & Hc & Hw)].
  - split; [done|]. intros l Hin Hwin. apply lineTest_winningLine in Hwin.
    rewrite (Hno l Hin) in Hwin. done.
  - apply truthy_cases in Hw. done.
Qed.

(** ** calculateWinner: both players are treated alike *)

Lemma read_swapMarks sq i : read (swapMarks <$> sq) i = swapMarks (read sq i).
Proof. unfold read. rewrite list_lookup_fmap. by destruct (sq !! i). Qed.

Lemma lineTest_swapMarks sq l : lineTest (swapMarks <$> sq) l = lineTest sq l.
Proof.
  destruct l as [[a b] c]. unfold lineTest, strictEq. rewrite !read_swapMarks.
  destruct (read sq a), (read sq b), (read sq c); done.
Qed.

(** Exchanging X and O on a board exchanges them in the reported winner and
    leaves the reported line as it is. *)
Theorem calculateWinner_swapMarks (sq : list SquareValue) :
  calculateWinner (swapMarks <$> sq)
  = {| winner := swapMarks (winner (calculateWinner sq));
       line := line (calculateWinner sq) |}.
Proof.
  unfold calculateWinner. induction lines as [|l ls IH]; cbn [scanLines]; [done|].
  rewrite lineTest_swapMarks. destruct (lineTest sq l); [|done].
  cbn [winner line]. by rewrite read_swapMarks.
Qed.

(** ** Board: the highlighted squares *)

Lemma highlighted_line sq a b c :
  (a, b, c) ∈ lines → highlighted (Board sq (Some (a, b, c))) = [a; b; c].
Proof.
  intros Hin. unfold lines in Hin.
  repeat (apply elem_of_cons in Hin as [Hin | Hin]; [by simplify_eq|]).
  inversion Hin.
Qed.

Lemma Board_cell sq w i v h :
  (i, v, h) ∈ concat (Board sq w) →
  i < 9 ∧ v = read sq i
  ∧ h = match w with Some l => includes l i | None => false end.
Proof.
  intros Hin. cbn in Hin.
  repeat (apply elem_of_cons in Hin as [Hin | Hin];
          [injection Hin as -> -> ->; split; [lia|done]|]).
  inversion Hin.
Qed.

(** Whatever the board, [Board] shows the nine cells in row-major order.
    Given the line reported by [calculateWinner], it highlights exactly the
    three squares of that line, each of which shows the winner's symbol; when
    no line is reported no square is highlighted. *)
Theorem Board_highlights_winner (sq : list SquareValue) :
  let result := calculateWinner sq in
  (λ cell : nat * SquareValue * bool, (cell.1.1, cell.1.2))
    <$> concat (Board sq (line result))
  = (λ i, (i, read sq i)) <$> seq 0 9
  ∧ highlighted (Board sq (line result))
    = match line result with
      | Some (a, b, c) => [a; b; c]
      | None => []
      end
  ∧ ∀ i v, (i, v, true) ∈ concat (Board sq (line result)) →
           v = winner result ∧ (v = MarkX ∨ v = MarkO).
Proof.
  cbv zeta. split; [done|].
  destruct (calculateWinner_result sq)
    as [(-> & Hw & Hno) | (a & b & c & -> & Hin & Ha & Hb & Hc & Hw)]; cycle 1.
  - apply truthy_cases in Hw.
    split; [by apply highlighted_line|].
    intros i v Hcell. apply Board_cell in Hcell as (_ & -> & Hh).
    symmetry in Hh. unfold includes in Hh.
    assert (a = i ∨ b = i ∨ c = i) as [<- | [<- | <-]].
    { apply orb_true_iff in Hh as [Hh | Hh];
        [apply orb_true_iff in Hh as [Hh | Hh]|];
        apply bool_decide_eq_true in Hh; auto. }
    all: split; congruence.
  - split; [done|]. intros i v Hcell. by apply Board_cell in Hcell as (_ & _ & ?).
Qed.

(** ** How the history grows *)

Lemma even_of_nat n : Z.even (Z.of_nat n) = Nat.even n.
Proof.
  induction (lt_wf n) as [n _ IH]. destruct n as [|[|n]]; [done..|].
  rewrite Nat.even_succ_succ, <- IH by lia.
  replace (Z.of_nat (S (S n))) with (Z.of_nat n + 2 * 1)%Z by lia.
  apply Z.even_add_mul_2.
Qed.

Lemma markAt_turn st :
  gameInv st →
  (if xIsNext st then MarkX else MarkO) = markAt (Z.to_nat (stepNumber st)).
Proof.
  intros (Hrange & Hturn & _). unfold markAt.
  rewrite <- even_of_nat, Z2Nat.id by lia. by rewrite Hturn.
Qed.

Lemma grownByMoves_initial : grownByMoves (history initialState).
Proof. intros k e e' _ He'. done. Qed.

Lemma grownByMoves_handleClick st i st' :
  gameInv st → grownByMoves (history st) → i < 9 →
  handleClick st i = Some st' → grownByMoves (history st').
Proof.
  intros Hinv Hgrown Hi Hclick.
  destruct (gameInv_current st Hinv) as [cur Hcur].
  rewrite (handleClick_inside st cur i Hcur) in Hclick.
  destruct (current_Some _ _ Hcur) as [Hrange Hlook].
  pose proof (markAt_turn st Hinv) as Hmark.
  destruct Hinv as (_ & _ & Hboards).
  destruct (Hboards _ _ Hlook) as [Hproper _].
  destruct (truthy (winner (calculateWinner (squares cur)))) eqn:Hw; simpl in Hclick;
    [by simplify_eq|].
  destruct (truthy (read (squares cur) i)) eqn:Hocc; simpl in Hclick;
    simplify_eq; [done|].
  set (n := Z.to_nat (stepNumber st)) in *.
  assert (length (take (S n) (history st)) = S n) as Hlen
    by (apply length_take_le; lia).
  intros k e e' Hk Hk'. cbn [history] in Hk, Hk'.
  apply lookup_app_Some in Hk' as [Hk' | [Hge Hk']].
  - apply lookup_take_Some in Hk' as [Hk' Hlt].
    rewrite lookup_app_l, lookup_take_lt in Hk by lia.
    by apply (Hgrown k).
  - rewrite Hlen in Hge, Hk'.
    apply list_lookup_singleton_Some in Hk' as [Hk' <-].
    assert (k = n) as -> by lia.
    rewrite lookup_app_l, lookup_take_lt in Hk by lia.
    rewrite Hlook in Hk. injection Hk as <-. cbn [squares].
    split.
    + destruct (calculateWinner_winner (squares cur)) as [Hn | [Hx | Ho]];
        [done | by rewrite Hx in Hw | by rewrite Ho in Hw].
    + exists i. split; [done|]. split; [by apply falsy_proper_is_Null|].
      rewrite Hmark. apply write_inside. destruct Hproper. lia.
Qed.

Lemma reachable_grownByMoves st : reachable st → grownByMoves (history st).
Proof.
  induction 1 as [|st e st' Hr IH Hoff Hfire]; [apply grownByMoves_initial|].
  destruct e as [i | s |]; simpl in *.
  - apply bool_decide_eq_true, boardIndices_range in Hoff.
    eapply grownByMoves_handleClick; eauto using reachable_gameInv.
  - by simplify_eq.
  - by simplify_eq.
Qed.

(** In a reachable state, any two neighbouring snapshots [k] and [k + 1] of
    the history differ in exactly one cell of the board: it is empty in
    snapshot [k] and holds X (for even [k]) or O (for odd [k]) in snapshot
    [k + 1]; every other cell reads the same in both.  Snapshot [k], having a
    successor, has no winner. *)
Theorem history_one_move_apart st k e e' :
  reachable st →
  history st !! k = Some e →
  history st !! S k = Some e' →
  winner (calculateWinner (squares e)) = Null
  ∧ ∃ i, i < 9
         ∧ read (squares e) i = Null
         ∧ read (squares e') i = (if Nat.even k then MarkX else MarkO)
         ∧ (∀ j, j ≠ i → read (squares e') j = read (squares e) j)
         ∧ length (squares e') = length (squares e).
Proof.
  intros Hr Hk Hk'.
  destruct (reachable_grownByMoves st Hr k e e' Hk Hk') as (Hw & i & Hi & Hnull & Hnext).
  split; [done|]. exists i. split; [done|].
  pose proof (lookup_lt_Some _ _ _ Hnull) as Hlt.
  rewrite Hnext. split; [by apply read_lookup|].
  split; [|split].
  - unfold read. by rewrite list_lookup_insert_eq.
  - intros j Hj. unfold read. by rewrite list_lookup_insert_ne.
  - apply length_insert.
Qed.

Lemma history_one_move_apart_witness :
  ∃ i, i < 9
       ∧ read [MarkX; Null; Null; Null; Null; Null; Null; Null; Null] i = Null
       ∧ read [MarkX; Null; Null; Null; MarkO; Null; Null; Null; Null] i = MarkO.
Proof.
  destruct (history_one_move_apart topRowGame 1
              {| squares := [MarkX; Null; Null; Null; Null; Null; Null; Null; Null] |}
              {| squares := [MarkX; Null; Null; Null; MarkO; Null; Null; Null; Null] |}
              topRowGame_reachable eq_refl eq_refl)
    as (_ & i & Hi & Hbefore & Hafter & _).
  exists i. done.
Defined.

(** ** The move list shows where each move went *)

(** In a reachable state every move [m > 0] of the history gets a location:
    [getMoveLocation] returns the text ["(r+1, c+1)"] of the board cell in
    row [r] and column [c] that is empty in snapshot [m - 1] and holds the
    mark of that move in snapshot [m]. *)
Theorem getMoveLocation_names_the_move st m :
  reachable st →
  0 < m < length (history st) →
  ∃ r c prev curr,
    r < 3 ∧ c < 3
    ∧ history st !! (m - 1) = Some prev
    ∧ history st !! m = Some curr
    ∧ read (squares prev) (r * 3 + c) = Null
    ∧ read (squares curr) (r * 3 + c) = (if Nat.even (m - 1) then MarkX else MarkO)
    ∧ getMoveLocation (history st) m
      = Some (Some ("(" +:+ pretty (r + 1) +:+ ", " +:+ pretty (c + 1) +:+ ")")).
Proof.
  intros Hr Hm.
  destruct (lookup_lt_is_Some_2 (history st) (m - 1)) as [prev Hprev]; [lia|].
  destruct (lookup_lt_is_Some_2 (history st) m) as [curr Hcurr]; [lia|].
  assert (history st !! S (m - 1) = Some curr) as Hnext
    by (by replace (S (m - 1)) with m by lia).
  destruct (reachable_grownByMoves st Hr _ _ _ Hprev Hnext)
    as (_ & i & Hi & Hnull & Hins).
  pose proof (lookup_lt_Some _ _ _ Hnull) as Hlt.
  exists (i / 3), (i mod 3), prev, curr.
  assert (i / 3 * 3 + i mod 3 = i) as Hsplit.
  { pose proof (Nat.div_mod_eq i 3). lia. }
  assert (i / 3 < 3) by (apply Nat.Div0.div_lt_upper_bound; lia).
  assert (i mod 3 < 3) by (apply Nat.mod_upper_bound; lia).
  rewrite Hsplit. do 4 (split; [done|]).
  assert (read (squares curr) i = markAt (m - 1)) as Hmark.
  { rewrite Hins. unfold read. by rewrite list_lookup_insert_eq. }
  split; [by apply read_lookup|]. split; [done|].
  unfold getMoveLocation. rewrite decide_False by lia.
  rewrite Hprev, Hcurr. cbn [mbind option_bind]. do 2 f_equal.
  rewrite <- formatLocation_grid, Hsplit by done.
  apply scanCells_first.
  - rewrite Hins, length_insert. lia.
  - rewrite Hmark, (read_lookup _ _ _ Hnull). unfold markAt. by destruct (Nat.even _).
  - intros j Hj. rewrite Hins. unfold read.
    rewrite list_lookup_insert_ne by lia. done.
Qed.

Lemma getMoveLocation_names_the_move_witness :
  ∃ r c,
    r < 3 ∧ c < 3
    ∧ getMoveLocation (history topRowGame) 4
      = Some (Some ("(" +:+ pretty (r + 1) +:+ ", " +:+ pretty (c + 1) +:+ ")")).
Proof.
  destruct (getMoveLocation_names_the_move topRowGame 4 topRowGame_reachable)
    as (r & c & _ & _ & Hr & Hc & _ & _ & _ & _ & Hloc); [simpl; lia|].
  exists r, c. done.
Defined.

(** ** Who can win, and when *)

Lemma calculateWinner_after_move sq i m :
  winner (calculateWinner sq) = Null →
  i < length sq →
  winner (calculateWinner (<[i:=m]> sq)) = Null
  ∨ winner (calculateWinner (<[i:=m]> sq)) = m.
Proof.
  intros Hno Hi.
  destruct (calculateWinner_result (<[i:=m]> sq))
    as [(_ & Hw & _) | (a & b & c & _ & Hin & Ha & Hb & Hc & Hw)]; [by left|].
  right.
  assert (∀ j, read (<[i:=m]> sq) i = m
               ∧ (j ≠ i → read (<[i:=m]> sq) j = read sq j)) as Hread.
  { intros j. unfold read. rewrite list_lookup_insert_eq by done.
    split; [done|]. intros Hj. by rewrite list_lookup_insert_ne. }
  destruct (decide (a = i)) as [-> | Hai]; [by rewrite <- Ha, (proj1 (Hread 0))|].
  destruct (decide (b = i)) as [-> | Hbi]; [by rewrite <- Hb, (proj1 (Hread 0))|].
  destruct (decide (c = i)) as [-> | Hci]; [by rewrite <- Hc, (proj1 (Hread 0))|].
  exfalso.
  rewrite (proj2 (Hread a)) in Ha by done.
  rewrite (proj2 (Hread b)) in Hb by done.
  rewrite (proj2 (Hread c)) in Hc by done.
  destruct (calculateWinner_result sq)
    as [(_ & _ & Hnone) | (? & ? & ? & _ & _ & _ & _ & _ & Hw')].
  - specialize (Hnone _ Hin). unfold lineTest, strictEq in Hnone.
    rewrite Ha, Hb, Hc, Hw in Hnone.
    by rewrite !bool_decide_eq_true_2 in Hnone.
  - by rewrite Hno in Hw'.
Qed.

(** In a reachable state a winner, if there is one, is the player who made
    the last move: the current step is not 0 and the winner is the symbol
    that is not next. *)
Theorem winner_made_last_move st cur :
  reachable st →
  current st = Some cur →
  winner (calculateWinner (squares cur)) ≠ Null →
  (0 < stepNumber st)%Z
  ∧ winner (calculateWinner (squares cur)) = (if xIsNext st then MarkO else MarkX)
  ∧ (winner (calculateWinner (squares cur)) = MarkX ↔ Z.odd (stepNumber st) = true).
Proof.
  intros Hr Hcur Hwon.
  destruct (current_Some _ _ Hcur) as [Hrange Hlook].
  pose proof (reachable_gameInv st Hr) as (_ & Hturn & Hboards).
  destruct (Z.to_nat (stepNumber st)) as [|k] eqn:Hn.
  { exfalso. apply Hwon.
    destruct (Hboards _ _ Hlook) as [[Hlen Hu] Hcount].
    rewrite (countMarks_zero _ Hcount Hu), Hlen. done. }
  destruct (lookup_lt_is_Some_2 (history st) k) as [prev Hprev]; [lia|].
  destruct (reachable_grownByMoves st Hr _ _ _ Hprev Hlook)
    as (Hno & i & Hi & Hnull & Hins).
  pose proof (lookup_lt_Some _ _ _ Hnull) as Hlt.
  assert (winner (calculateWinner (squares cur)) = markAt k) as Hw.
  { rewrite Hins in Hwon |- *.
    destruct (calculateWinner_after_move (squares prev) i (markAt k) Hno Hlt); done. }
  assert (xIsNext st = negb (Nat.even k)) as Hx.
  { rewrite Hturn. replace (stepNumber st) with (Z.of_nat (S k)) by lia.
    by rewrite even_of_nat, Nat.even_succ, <- Nat.negb_even. }
  assert (Z.odd (stepNumber st) = Nat.even k) as Hodd.
  { rewrite <- Z.negb_even, <- Hturn, Hx. apply negb_involutive. }
  split; [lia|]. rewrite Hw, Hx, Hodd. unfold markAt.
  destruct (Nat.even k); simpl; split; try done.
Qed.

Lemma winner_made_last_move_witness :
  (0 < stepNumber topRowGame)%Z
  ∧ MarkX = (if xIsNext topRowGame then MarkO else MarkX).
Proof.
  destruct (winner_made_last_move topRowGame
              {| squares := [MarkX; MarkX; MarkX; Null; MarkO; Null; Null; MarkO; Null] |}
              topRowGame_reachable eq_refl) as (Hpos & Hw & _).
  - vm_compute. discriminate.
  - split; [exact Hpos | exact Hw].
Defined.

(** ** Marks stay where they are *)

(** In a reachable state a mark never changes from one snapshot to a later
    one: a cell that holds X or O in snapshot [k] holds the same symbol in
    every snapshot after it. *)
Theorem marks_persist st k k' e e' j :
  reachable st →
  k ≤ k' →
  history st !! k = Some e →
  history st !! k' = Some e' →
  truthy (read (squares e) j) = true →
  read (squares e') j = read (squares e) j.
Proof.
  intros Hr Hle He. revert e'.
  induction Hle as [|k' Hle IH]; intros e' He' Hmark; [by simplify_eq|].
  destruct (lookup_lt_is_Some_2 (history st) k') as [mid Hmid].
  { apply lookup_lt_Some in He'. lia. }
  specialize (IH mid Hmid Hmark).
  destruct (reachable_grownByMoves st Hr _ _ _ Hmid He') as (_ & i & _ & Hnull & Hins).
  rewrite <- IH, Hins. unfold read.
  destruct (decide (i = j)) as [-> | Hne].
  - exfalso. rewrite (read_lookup _ _ _ Hnull) in IH.
    rewrite <- IH in Hmark. done.
  - by rewrite list_lookup_insert_ne.
Qed.

Lemma marks_persist_witness :
  read [MarkX; MarkX; MarkX; Null; MarkO; Null; Null; MarkO; Null] 0
  = read [MarkX; Null; Null; Null; Null; Null; Null; Null; Null] 0.
Proof.
  apply (marks_persist topRowGame 1 5
           {| squares := [MarkX; Null; Null; Null; Null; Null; Null; Null; Null] |}
           {| squares := [MarkX; MarkX; MarkX; Null; MarkO; Null; Null; MarkO; Null] |} 0
           topRowGame_reachable); [lia | reflexivity..].
Defined.

(** ** Bounds and progress *)

Lemma exists_Null sq :
  Forall (λ v, v ≠ Undefined) sq → countMarks sq < length sq →
  ∃ i, sq !! i = Some Null.
Proof.
  induction sq as [|v sq IH]; simpl; intros Hu Hc; [lia|].
  apply Forall_cons in Hu as [Hv Hu].
  destruct v; simpl in Hc; try done.
  - destruct IH as [i Hi]; [done | lia |]. by exists (S i).
  - destruct IH as [i Hi]; [done | lia |]. by exists (S i).
  - by exists 0.
Qed.

(** In a reachable state the history holds at most ten snapshots and the
    current step lies between 0 and 9. *)
Theorem history_bounded st :
  reachable st →
  1 ≤ length (history st) ≤ 10 ∧ (0 ≤ stepNumber st ≤ 9)%Z.
Proof.
  intros Hr. pose proof (reachable_gameInv st Hr) as (Hrange & _ & Hboards).
  assert (length (history st) ≤ 10); [|lia].
  destruct (lookup_lt_is_Some_2 (history st) (length (history st) - 1)) as [e He]; [lia|].
  destruct (Hboards _ _ He) as [[Hlen _] Hcount].
  pose proof (countMarks_le_length (squares e)). lia.
Qed.

Lemma history_bounded_witness :
  1 ≤ length (history drawnGame) ≤ 10 ∧ (0 ≤ stepNumber drawnGame ≤ 9)%Z.
Proof. exact (history_bounded drawnGame drawnGame_reachable). Defined.

(** In a reachable state without a winner and before step 9 the board has an
    empty cell, and a click on it is accepted: the step advances by one and
    the new state is again reachable. *)
Theorem handleClick_can_continue st cur :
  reachable st →
  current st = Some cur →
  winner (calculateWinner (squares cur)) = Null →
  stepNumber st ≠ 9%Z →
  ∃ i st',
    i < 9
    ∧ read (squares cur) i = Null
    ∧ handleClick st i = Some st'
    ∧ stepNumber st' = (stepNumber st + 1)%Z
    ∧ reachable st'.
Proof.
  intros Hr Hcur Hno Hnine.
  destruct (current_Some _ _ Hcur) as [Hrange Hlook].
  pose proof (reachable_gameInv st Hr) as (_ & _ & Hboards).
  destruct (Hboards _ _ Hlook) as [[Hlen Hu] Hcount].
  pose proof (countMarks_le_length (squares cur)) as Hle.
  destruct (exists_Null (squares cur) Hu) as [i Hi]; [lia|].
  pose proof (lookup_lt_Some _ _ _ Hi) as Hlt.
  pose proof (handleClick_inside st cur i Hcur) as Hclick.
  rewrite Hno, (read_lookup _ _ _ Hi) in Hclick. simpl in Hclick.
  eexists i, _. split; [lia|]. split; [by apply read_lookup|].
  split; [exact Hclick|]. split; [done|].
  apply (reach_fire st (Click i)); [done | | exact Hclick].
  apply bool_decide_eq_true, boardIndices_range. lia.
Qed.

Lemma handleClick_can_continue_witness :
  ∃ i st', i < 9 ∧ handleClick rewoundGame i = Some st' ∧ stepNumber st' = 2%Z.
Proof.
  destruct (handleClick_can_continue rewoundGame
              {| squares := [MarkX; Null; Null; Null; Null; Null; Null; Null; Null] |}
              rewoundGame_reachable eq_refl eq_refl)
    as (i & st' & Hi & _ & Hclick & Hstep & _); [discriminate|].
  exists i, st'. done.
Defined.

(** ** Time travel and sorting compose with the rest *)

(** In a reachable state, jumping anywhere and then jumping back to the step
    one came from restores the whole state: nothing but the step and the turn
    indicator was touched, and the turn indicator is recomputed to what it
    was. *)
Theorem jumpTo_and_back st s :
  reachable st →
  jumpTo (jumpTo st s) (stepNumber st) = st.
Proof.
  intros Hr. pose proof (reachable_gameInv st Hr) as (_ & Hturn & _).
  destruct st as [hist step turn asc]. unfold jumpTo. simpl in *.
  by rewrite rem2_even, Hturn.
Qed.

Lemma jumpTo_and_back_witness : jumpTo (jumpTo topRowGame 2) 5 = topRowGame.
Proof. exact (jumpTo_and_back topRowGame 2 topRowGame_reachable). Defined.

(** The sort flag plays no part in the game: toggling it before a click or a
    jump gives the same result as toggling it afterwards, the status line
    does not depend on it, and toggling twice restores the state. *)
Theorem toggleSort_commutes st :
  (∀ i, handleClick (toggleSort st) i = toggleSort <$> handleClick st i)
  ∧ (∀ s, jumpTo (toggleSort st) s = toggleSort (jumpTo st s))
  ∧ status (toggleSort st) = status st
  ∧ toggleSort (toggleSort st) = st.
Proof.
  split; [|split; [done|split]].
  - intros i. unfold handleClick, winnerResult, current. cbn [toggleSort history stepNumber].
    destruct (index (history st) (stepNumber st)) as [cur|]; [|done].
    cbn [mbind option_bind].
    destruct (_ !! _) as [cur'|]; [|done]. cbn [mbind option_bind].
    destruct (truthy _ || truthy _); done.
  - done.
  - destruct st as [hist step turn asc]. unfold toggleSort. simpl.
    by rewrite negb_involutive.
Qed.

(** ** Playing without time travel *)

Lemma run_stays_at_tip es : ∀ st st',
  reachable st →
  stepNumber st = (Z.of_nat (length (history st)) - 1)%Z →
  Forall (λ e, isJump e = false) es →
  run st es = Some st' →
  stepNumber st' = (Z.of_nat (length (history st')) - 1)%Z.
Proof.
  induction es as [|e es IH]; intros st st' Hr Htip Hes Hrun; simpl in Hrun;
    [by simplify_eq|].
  apply Forall_cons in Hes as [He Hes].
  destruct (offered st e) eqn:Hoff; [|done].
  destruct (fire st e) as [st1|] eqn:Hfire; [|done]. simpl in Hrun.
  apply (IH st1 st'); [by eapply reach_fire | | done | done].
  destruct e as [i | s |]; simpl in *; [|done|by simplify_eq].
  destruct (reachable_current st Hr) as [cur Hcur].
  destruct (current_Some _ _ Hcur) as [Hrange _].
  rewrite (handleClick_inside st cur i Hcur) in Hfire.
  destruct (truthy _ || truthy _); simplify_eq; [done|]. simpl.
  rewrite length_app, length_take_le by lia. simpl. lia.
Qed.

(** As long as no jump is made, the step shown is the last one of the
    history: after any sequence of clicks and sort toggles from the initial
    state, the current step is the last index of the history. *)
Theorem no_jump_stays_at_tip es st :
  Forall (λ e, isJump e = false) es →
  run initialState es = Some st →
  stepNumber st = (Z.of_nat (length (history st)) - 1)%Z.
Proof.
  intros Hes Hrun.
  by apply (run_stays_at_tip es initialState st reach_init).
Qed.

Lemma no_jump_stays_at_tip_witness : stepNumber topRowGame = (6 - 1)%Z.
Proof.
  apply (no_jump_stays_at_tip [Click 0; Click 4; ToggleSort; Click 1; Click 1;
                               Click 7; Click 2; ToggleSort; Click 8]).
  - repeat constructor.
  - reflexivity.
Defined.

(** ** When the code raises *)




(** ** The location text *)

(** On the nine cells of the board the location text identifies the cell:
    two different cells never get the same text. *)
Theorem formatLocation_distinct i j :
  i < 9 → j < 9 → i ≠ j → formatLocation i ≠ formatLocation j.
Proof.
  intros Hi Hj.
  do 9 (destruct i as [|i]; [do 9 (destruct j as [|j]; [by vm_compute|]); lia|]).
  lia.
Qed.

Lemma formatLocation_distinct_witness : formatLocation 2 ≠ formatLocation 5.
Proof. apply formatLocation_distinct; lia. Defined.

(** ** The move list *)

Lemma moves_total_current st : is_Some (current st) → is_Some (moves st).
Proof.
  intros [cur Hcur]. unfold moves. rewrite Hcur. cbn [mbind option_bind].
  apply mapM_is_Some. apply Forall_forall. intros m Hm.
  apply elem_of_seq in Hm. unfold compose, moveItem.
  destruct (getMoveLocation_total (history st) m) as [loc ->]; [lia|].
  cbn [mbind option_bind]. by case_bool_decide.
Qed.

(** In a reachable state the move list has one entry per snapshot, in
    history order.  The entry of the current step is the emphasised text;
    every other entry is a button that jumps to its own index, the one for
    index 0 being labelled ["Go to game start"].  Each button's target is an
    existing history index, so pressing it leads to a reachable state. *)
Theorem moves_entries st :
  reachable st →
  ∃ ms,
    moves st = Some ms
    ∧ length ms = length (history st)
    ∧ ∀ m, m < length (history st) →
        ∃ item,
          ms !! m = Some item
          ∧ (Z.of_nat m = stepNumber st → ∃ text, item = CurrentMove m text)
          ∧ (Z.of_nat m ≠ stepNumber st →
               ∃ desc,
                 item = JumpButton m m desc
                 ∧ (m = 0 → desc = "Go to game start")
                 ∧ offered st (Jump (Z.of_nat m)) = true
                 ∧ reachable (jumpTo st (Z.of_nat m))).
Proof.
  intros Hr. destruct (moves_total_current st (reachable_current st Hr)) as [ms Hms].
  exists ms. split; [done|].
  unfold moves in Hms. destruct (current st); [|done].
  cbn [mbind option_bind] in Hms.
  pose proof (length_mapM _ _ _ Hms) as Hlen. rewrite length_seq in Hlen.
  split; [done|]. intros m Hm.
  apply mapM_Some in Hms.
  destruct (Forall2_lookup_l _ _ _ m m Hms) as (item & Hitem & Hmk).
  { by apply lookup_seq_lt. }
  exists item. split; [done|].
  unfold moveItem in Hmk.
  destruct (getMoveLocation (history st) m) as [loc|]; [|done].
  cbn [mbind option_bind] in Hmk.
  assert (offered st (Jump (Z.of_nat m)) = true) as Hoff.
  { apply bool_decide_eq_true. lia. }
  case_bool_decide as Hcurrent; simplify_eq; split.
  - intros _. by eexists.
  - done.
  - done.
  - intros _. eexists. split; [done|]. split.
    + intros ->. done.
    + split; [done|]. by apply (reach_fire st (Jump (Z.of_nat m))).
Qed.

Lemma moves_entries_witness :
  ∃ ms, moves rewoundGame = Some ms ∧ length ms = 4.
Proof.
  destruct (moves_entries rewoundGame rewoundGame_reachable) as (ms & Hms & Hlen & _).
  exists ms. done.
Defined.

(** ** The whole render *)

Lemma current_None st :
  current st = None
  ↔ (stepNumber st < 0 ∨ Z.of_nat (length (history st)) ≤ stepNumber st)%Z.
Proof.
  split.
  - unfold current, index. case_decide; [|lia].
    intros Hnone. apply lookup_ge_None in Hnone. lia.
  - apply index_outside.
Qed.

Lemma render_current st : is_Some (render st) ↔ is_Some (current st).
Proof.
  unfold render, sortedMoves, status, winnerResult. split.
  - intros [v Hv]. destruct (current st); [done|]. done.
  - intros Hcur. destruct (moves_total_current st Hcur) as [ms Hms].
    destruct Hcur as [cur Hcur]. rewrite Hcur, Hms. done.
Qed.

(** The render of [Game] raises exactly when the current step is outside the
    history; in particular the move list, which calls [getMoveLocation] for
    every history index, never makes it raise. *)
Theorem render_raises_iff st :
  render st = None
  ↔ (stepNumber st < 0 ∨ Z.of_nat (length (history st)) ≤ stepNumber st)%Z.
Proof.
  rewrite <- current_None, !eq_None_not_Some. by rewrite render_current.
Qed.

(** In any state that renders, reachable or not, [handleClick] returns for
    every index, and the state it returns renders again: its step is inside
    its history. *)
Theorem handleClick_keeps_rendering st i :
  is_Some (render st) →
  ∃ st', handleClick st i = Some st' ∧ is_Some (render st').
Proof.
  intros Hrender. pose proof Hrender as [cur Hcur]%render_current.
  rewrite (handleClick_inside st cur i Hcur).
  destruct (truthy _ || truthy _); (eexists; split; [done|]); [done|].
  apply render_current, index_inside. cbn [history stepNumber].
  destruct (current_Some _ _ Hcur) as [Hrange _].
  rewrite length_app, length_take_le by lia. simpl. lia.
Qed.

Lemma handleClick_keeps_rendering_witness :
  ∃ st', handleClick initialState 10 = Some st' ∧ is_Some (render st').
Proof. apply handleClick_keeps_rendering. by eexists. Defined.

(** ** How many marks of each player *)

Lemma countOf_insert sq i v w :
  sq !! i = Some Null → w ≠ Null →
  countOf w (<[i:=v]> sq) = countOf w sq + (if strictEq v w then 1 else 0).
Proof.
  revert i. induction sq as [|u sq IH]; intros [|i] Hi Hw; simplify_eq/=.
  - unfold strictEq at 2. rewrite bool_decide_eq_false_2 by done. lia.
  - rewrite (IH i) by done. lia.
Qed.

Lemma countOf_replicate_Null n w : w ≠ Null → countOf w (replicate n Null) = 0.
Proof.
  intros Hw. induction n as [|n IH]; simpl; [done|].
  unfold strictEq. by rewrite bool_decide_eq_false_2.
Qed.

Lemma reachable_counts st : reachable st →
  ∀ k e, history st !! k = Some e →
         countOf MarkX (squares e) = (k + 1) / 2 ∧ countOf MarkO (squares e) = k / 2.
Proof.
  intros Hr. pose proof (reachable_gameInv st Hr) as (_ & _ & Hboards).
  induction k as [|k IH]; intros e He.
  - destruct (Hboards _ _ He) as [[Hlen Hu] Hcount].
    rewrite (countMarks_zero _ Hcount Hu), !countOf_replicate_Null; done.
  - destruct (lookup_lt_is_Some_2 (history st) k) as [prev Hprev].
    { apply lookup_lt_Some in He. lia. }
    destruct (IH prev Hprev) as [HX HO].
    destruct (reachable_grownByMoves st Hr _ _ _ Hprev He) as (_ & i & _ & Hnull & ->).
    rewrite !countOf_insert, HX, HO by done. unfold markAt.
    destruct (Nat.Even_or_Odd k) as [[p ->] | [p ->]].
    + rewrite Nat.even_even. cbn [strictEq bool_decide decide_rel].
      replace (2 * p + 1) with (1 + p * 2) by lia.
      replace (S (2 * p) + 1) with (0 + (p + 1) * 2) by lia.
      replace (S (2 * p)) with (1 + p * 2) by lia.
      replace (2 * p) with (0 + p * 2) by lia.
      rewrite !Nat.div_add by done. simpl. lia.
    + rewrite Nat.even_odd. cbn [strictEq bool_decide decide_rel].
      replace (2 * p + 1 + 1) with (0 + (p + 1) * 2) by lia.
      replace (S (2 * p + 1) + 1) with (1 + (p + 1) * 2) by lia.
      replace (S (2 * p + 1)) with (0 + (p + 1) * 2) by lia.
      replace (2 * p + 1) with (1 + p * 2) by lia.
      rewrite !Nat.div_add by done. simpl. lia.
Qed.

(** In a reachable state the snapshot at index [k] holds [(k + 1) / 2] X
    marks and [k / 2] O marks: the players alternate, X first. *)
Theorem history_mark_counts st k e :
  reachable st →
  history st !! k = Some e →
  countOf MarkX (squares e) = (k + 1) / 2
  ∧ countOf MarkO (squares e) = k / 2
  ∧ countOf Null (squares e) = 9 - k.
Proof.
  intros Hr He. destruct (reachable_counts st Hr k e He) as [HX HO].
  split; [done|]. split; [done|].
  pose proof (reachable_gameInv st Hr) as (_ & _ & Hboards).
  destruct (Hboards _ _ He) as [[Hlen Hu] Hcount].
  assert (∀ sq, Forall (λ v, v ≠ Undefined) sq →
                countOf Null sq + countMarks sq = length sq) as Hsplit.
  { induction sq as [|v sq IH]; [done|]. intros Hsq.
    apply Forall_cons in Hsq as [Hv Hsq]. specialize (IH Hsq).
    destruct v; simpl in *; try done; lia. }
  specialize (Hsplit _ Hu). lia.
Qed.

Lemma history_mark_counts_witness :
  countOf MarkX [MarkX; MarkX; MarkX; Null; MarkO; Null; Null; MarkO; Null] = (5 + 1) / 2
  ∧ countOf MarkO [MarkX; MarkX; MarkX; Null; MarkO; Null; Null; MarkO; Null] = 5 / 2
  ∧ countOf Null [MarkX; MarkX; MarkX; Null; MarkO; Null; Null; MarkO; Null] = 9 - 5.
Proof.
  exact (history_mark_counts topRowGame 5
           {| squares := [MarkX; MarkX; MarkX; Null; MarkO; Null; Null; MarkO; Null] |}
           topRowGame_reachable eq_refl).
Defined.

Lemma countOf_line sq a b c w :
  length sq = 9 → (a, b, c) ∈ lines →
  read sq a = w → read sq b = w → read sq c = w →
  3 ≤ countOf w sq.
Proof.
  intros Hlen Hin.
  do 9 (destruct sq as [|? sq]; [done|]). destruct sq; [|done]. clear Hlen.
  unfold lines in Hin.
  repeat (apply elem_of_cons in Hin as [Hin | Hin];
          [injection Hin as -> -> ->; unfold read; simpl;
           intros -> -> ->; unfold strictEq;
           rewrite !(bool_decide_eq_true_2 (w = w)) by done;
           repeat case_bool_decide; lia|]).
  inversion Hin.
Qed.

(** In a reachable state a winner is reported no earlier than step 5, and a
    win of O no earlier than step 6: three marks of one player have to be on
    the board. *)
Theorem winner_needs_five_moves st cur :
  reachable st →
  current st = Some cur →
  winner (calculateWinner (squares cur)) ≠ Null →
  (5 ≤ stepNumber st)%Z
  ∧ (winner (calculateWinner (squares cur)) = MarkO → (6 ≤ stepNumber st)%Z).
Proof.
  intros Hr Hcur Hwon.
  destruct (current_Some _ _ Hcur) as [Hrange Hlook].
  pose proof (reachable_gameInv st Hr) as (_ & _ & Hboards).
  destruct (Hboards _ _ Hlook) as [[Hlen _] _].
  destruct (reachable_counts st Hr _ _ Hlook) as [HX HO].
  destruct (calculateWinner_result (squares cur))
    as [(_ & Hw & _) | (a & b & c & _ & Hin & Ha & Hb & Hc & Hw)]; [done|].
  pose proof (countOf_line _ a b c _ Hlen Hin Ha Hb Hc) as Hthree.
  set (k := Z.to_nat (stepNumber st)) in *.
  assert (stepNumber st = Z.of_nat k) as -> by lia.
  apply truthy_cases in Hw as [Hw | Hw]; rewrite Hw in Hthree |- *.
  - rewrite HX in Hthree. split; [|done].
    destruct (decide (k < 5)) as [Hlt|]; [|lia].
    exfalso. do 5 (destruct k as [|k]; [by vm_compute in Hthree; lia|]). lia.
  - rewrite HO in Hthree.
    assert (6 ≤ k); [|lia].
    destruct (decide (k < 6)) as [Hlt|]; [|lia].
    exfalso. do 6 (destruct k as [|k]; [by vm_compute in Hthree; lia|]). lia.
Qed.

Lemma winner_needs_five_moves_witness : (5 ≤ stepNumber topRowGame)%Z.
Proof.
  destruct (winner_needs_five_moves topRowGame
              {| squares := [MarkX; MarkX; MarkX; Null; MarkO; Null; Null; MarkO; Null] |}
              topRowGame_reachable eq_refl) as [Hfive _].
  - vm_compute. discriminate.
  - exact Hfive.
Defined.

(** ** The rendered view *)

Lemma boardSquares_cell sq w i view :
  (i, view) ∈ concat (boardSquares sq w) →
  i < 9
  ∧ view = Square (read sq i) (match w with Some l => includes l i | None => false end).
Proof.
  intros Hin. cbn in Hin.
  repeat (apply elem_of_cons in Hin as [Hin | Hin];
          [injection Hin as -> ->; split; [lia|done]|]).
  inversion Hin.
Qed.

(** Whenever the render succeeds, a square drawn with the highlight class
    shows the very symbol that the status line announces as the winner. *)
Theorem highlight_matches_status st v i view :
  render st = Some v →
  (i, view) ∈ concat (viewBoard v) →
  className view = "square highlight" →
  viewStatus v = "Winner: " +:+ content view
  ∧ (content view = "X" ∨ content view = "O").
Proof.
  intros Hrender Hin Hclass.
  unfold render, status, winnerResult in Hrender.
  destruct (current st) as [cur|]; [|done]. cbn [mbind option_bind] in Hrender.
  destruct (sortedMoves st) as [shown|]; [|done]. cbn [mbind option_bind] in Hrender.
  injection Hrender as <-. cbn [viewBoard viewStatus] in *.
  apply boardSquares_cell in Hin as [Hi ->]. cbn [Square className content] in *.
  destruct (calculateWinner_result (squares cur))
    as [(Hline & _ & _) | (a & b & c & Hline & _ & Ha & Hb & Hc & Hw)];
    rewrite Hline in Hclass.
  - done.
  - destruct (includes (a, b, c) i) eqn:Hinc; [|done].
    assert (read (squares cur) i = winner (calculateWinner (squares cur))) as ->.
    { unfold includes in Hinc.
      apply orb_true_iff in Hinc as [Hinc | Hinc];
        [apply orb_true_iff in Hinc as [Hinc | Hinc]|];
        apply bool_decide_eq_true in Hinc; congruence. }
    rewrite Hw. apply truthy_cases in Hw as [-> | ->]; auto.
Qed.

Lemma highlight_matches_status_witness :
  ∃ v, render topRowGame = Some v ∧ viewStatus v = "Winner: X".
Proof.
  eexists. split; [reflexivity|].
  apply (highlight_matches_status topRowGame _ 1
           {| className := "square highlight"; content := "X" |} eq_refl);
    [|reflexivity].
  apply list_elem_of_lookup. exists 1. reflexivity.
Defined.

Lemma moveItem_key hist step m item :
  moveItem hist step m = Some item → itemKey item = m.
Proof.
  unfold moveItem. destruct (getMoveLocation hist m); [|done].
  cbn [mbind option_bind]. case_bool_decide; by intros [= <-].
Qed.

(** Whenever the render succeeds, the label of the sort button and the order
    of the move list go together: under ["Sort Descending"] the entries stand
    for moves 0, 1, 2, ... in history order, under ["Sort Ascending"] for the
    same moves in the opposite order. *)
Theorem sort_label_matches_order st v :
  render st = Some v →
  (viewSortLabel v = "Sort Descending"
   ∧ itemKey <$> viewMoves v = seq 0 (length (history st)))
  ∨ (viewSortLabel v = "Sort Ascending"
     ∧ itemKey <$> viewMoves v = reverse (seq 0 (length (history st)))).
Proof.
  intros Hrender. unfold render, sortedMoves, moves, sortLabel in Hrender.
  destruct (current st) as [cur|]; [|done]. cbn [mbind option_bind] in Hrender.
  destruct (mapM _ _) as [ms|] eqn:Hms; [|done]. cbn [mbind option_bind] in Hrender.
  destruct (status st) as [text|]; [|done]. cbn [mbind option_bind] in Hrender.
  injection Hrender as <-. cbn [viewSortLabel viewMoves].
  assert (itemKey <$> ms = seq 0 (length (history st))) as Hkeys.
  { apply mapM_Some in Hms. symmetry. apply list_eq_Forall2, Forall2_fmap_r.
    eapply Forall2_impl; [exact Hms|]. intros m item Hitem. cbn beta in *.
    symmetry. by eapply moveItem_key. }
  destruct (isAscending st); [left | right]; (split; [done|]).
  - done.
  - by rewrite fmap_reverse, Hkeys.
Qed.

Lemma sort_label_matches_order_witness :
  ∃ v, render (toggleSort rewoundGame) = Some v
       ∧ itemKey <$> viewMoves v = [3; 2; 1; 0].
Proof.
  eexists. split; [reflexivity|].
  destruct (sort_label_matches_order (toggleSort rewoundGame) _ eq_refl)
    as [[Hlabel _] | [_ Hkeys]].
  - vm_compute in Hlabel. discriminate.
  - exact Hkeys.
Defined.
